(** * The task manager hook of [src/App.tsx]

    [useTaskManager] keeps three React state cells ([tasks], [nextId],
    [logs]) and returns four functions that dispatch updates to them.
    This file embeds the hook together with the part of React's [useState]
    contract its behaviour depends on:

    - a render fixes the values of [tasks], [nextId] and [logs] that the
      functions created by that render see (they are [const] bindings);
    - a [set...] call does not change those bindings: it puts an action
      (a value, or an updater [prev => next]) in a queue;
    - the next render runs the queued actions in dispatch order; React
      may also run an updater at once, inside the [set...] call, when the
      component has nothing queued (its eager path), and the program has
      no say in that.

    An operation is a computation in the state monad over the hook
    instance; [settled] is the state the next render shows, and the
    statements below compare it before and after a call.

    Numbers that the program uses as counters and identifiers ([Task.id],
    [nextId], the argument of [completeTask]) are integers, modelled in [Z]
    (a JavaScript number is exact on them below 2^53).  The identifier of a
    log entry is the engine's value of [Date.now() + Math.random()], a
    rational number read from the environment. *)

From Stdlib Require Import ZArith List String Bool Lia.
From Stdlib Require Import QArith_base DecimalString.
From ExtLib Require Import Structures.Monad Structures.MonadState.
From ExtLib Require Import Data.Monads.StateMonad.
Import ListNotations.
Import MonadNotation.
Local Open Scope string_scope.
Local Open Scope list_scope.
Local Open Scope monad_scope.
Local Open Scope Z_scope.

(** ** Type definitions *)

(** [interface Task] *)
Module Task.
Record t : Type := mk {
  id : Z;
  description : string;
  completed : bool
}.
End Task.

(** [interface LogEntry] *)
Module LogEntry.
Record t : Type := mk {
  id : Q;
  timestamp : string;
  message : string
}.
End LogEntry.

(** What a JavaScript call evaluates to, as far as this program goes. *)
Inductive JsValue : Type :=
| undefined
| boolean (b : bool).

(** The readings [logOutput] takes from the environment in one call:
    [Date.now() + Math.random()] and [new Date().toLocaleTimeString()]. *)
Record Clock : Type := {
  now_plus_random : Q;
  toLocaleTimeString : string
}.

(** ** React state *)

(** The argument of a [set...] function: a value or an updater. *)
Inductive SetStateAction (S : Type) : Type :=
| Value (v : S)
| Updater (f : S -> S).
Arguments Value {S} v.
Arguments Updater {S} f.

Definition basicStateReducer {S : Type} (state : S) (action : SetStateAction S) : S :=
  match action with
  | Value v => v
  | Updater f => f state
  end.

(** The three [useState] values of one render of [useTaskManager]. *)
Record Snapshot : Type := {
  tasks : list Task.t;
  nextId : Z;
  logs : list LogEntry.t
}.

Inductive Update : Type :=
| SetTasks (a : SetStateAction (list Task.t))
| SetNextId (a : SetStateAction Z)
| SetLogs (a : SetStateAction (list LogEntry.t)).

(** The hook instance: the state of the last render and the updates
    dispatched since, oldest first. *)
Record Hooks : Type := {
  rendered : Snapshot;
  queue : list Update
}.

Definition apply_update (s : Snapshot) (u : Update) : Snapshot :=
  match u with
  | SetTasks a =>
      {| tasks := basicStateReducer (tasks s) a; nextId := nextId s; logs := logs s |}
  | SetNextId a =>
      {| tasks := tasks s; nextId := basicStateReducer (nextId s) a; logs := logs s |}
  | SetLogs a =>
      {| tasks := tasks s; nextId := nextId s; logs := basicStateReducer (logs s) a |}
  end.

(** A render processes the queue. *)
Definition render (h : Hooks) : Hooks :=
  {| rendered := fold_left apply_update (queue h) (rendered h); queue := [] |}.

(** The state the next render shows. *)
Definition settled (h : Hooks) : Snapshot := rendered (render h).

(** [useState([])], [useState(1)], [useState([])] at mount. *)
Definition initial : Hooks :=
  {| rendered := {| tasks := []; nextId := 1; logs := [] |}; queue := [] |}.

Definition dispatch (u : Update) : state Hooks unit :=
  h <- get ;;
  put {| rendered := rendered h; queue := queue h ++ [u] |}.

Definition setTasks (a : SetStateAction (list Task.t)) : state Hooks unit :=
  dispatch (SetTasks a).
Definition setNextId (a : SetStateAction Z) : state Hooks unit :=
  dispatch (SetNextId a).
Definition setLogs (a : SetStateAction (list LogEntry.t)) : state Hooks unit :=
  dispatch (SetLogs a).

(** Whether the updater of this [set...] call runs inside the call: React
    can do so only when nothing is queued, and then takes the last rendered
    state as [prev]; otherwise the updater first runs in the next render.
    [eager] is React's choice, not the program's. *)
Definition invoked_now (eager : bool) (h : Hooks) : bool :=
  eager && match queue h with [] => true | _ :: _ => false end.

(** ** The hook *)

(** The template literal [`${id}`] on an integer. *)
Definition string_of_Z (n : Z) : string := NilZero.string_of_int (Z.to_int n).

Definition logOutput (clk : Clock) (msg : string) : state Hooks JsValue :=
  let entry := {| LogEntry.id := now_plus_random clk;
                  LogEntry.timestamp := toLocaleTimeString clk;
                  LogEntry.message := msg |} in
  setLogs (Updater (fun prev => prev ++ [entry])) ;;
  ret undefined.

(** [addTask] as created by the render that saw [c]: [nextId] is read
    from [c]. *)
Definition addTask (c : Snapshot) (clk : Clock) (description : string)
  : state Hooks JsValue :=
  let newTask := {| Task.id := nextId c;
                    Task.description := description;
                    Task.completed := false |} in
  setTasks (Updater (fun prev => prev ++ [newTask])) ;;
  setNextId (Updater (fun prev => prev + 1)) ;;
  logOutput clk ("Task added: " ++ description)%string ;;
  ret undefined.

(** The callback of [prev.map] in [completeTask]; [found] is the variable
    it assigns. *)
Definition mark (id : Z) (found : bool) (t : Task.t) : bool * Task.t :=
  if Task.id t =? id
  then (true, {| Task.id := Task.id t;
                 Task.description := Task.description t;
                 Task.completed := true |})
  else (found, t).

(** [prev.map(...)], left to right, threading [found]. *)
Fixpoint map_mark (id : Z) (found : bool) (prev : list Task.t)
  : bool * list Task.t :=
  match prev with
  | [] => (found, [])
  | t :: rest =>
      let (found1, t') := mark id found t in
      let (found2, rest') := map_mark id found1 rest in
      (found2, t' :: rest')
  end.

Definition completeTask (eager : bool) (clk : Clock) (id : Z)
  : state Hooks JsValue :=
  h <- get ;;
  let found :=
    if invoked_now eager h
    then fst (map_mark id false (tasks (rendered h)))
    else false in
  setTasks (Updater (fun prev => snd (map_mark id false prev))) ;;
  (if found
   then logOutput clk ("Task " ++ string_of_Z id ++ " done.")%string
   else logOutput clk "ID not found.") ;;
  ret undefined.

Definition resetSystem (clk : Clock) : state Hooks JsValue :=
  setTasks (Value []) ;;
  setNextId (Value 1) ;;
  setLogs (Value []) ;;
  logOutput clk "System reset." ;;
  ret undefined.

(** The body of the timer callback in [App]'s mount effect; [c] is the
    mount render, whose [logOutput] and [addTask] the effect captured. *)
Definition startup (c : Snapshot) (k1 k2 k3 : Clock) : state Hooks JsValue :=
  logOutput k1 "Initializing TaskManager..." ;;
  addTask c k2 "Refactor Legacy Code" ;;
  addTask c k3 "Upload Multiple Files".

(** One call followed by the render it schedules. *)
Definition call {A : Type} (op : state Hooks A) (h : Hooks) : Hooks :=
  render (execState op h).

(** The log entry [logOutput] builds. *)
Definition entry (clk : Clock) (msg : string) : LogEntry.t :=
  {| LogEntry.id := now_plus_random clk;
     LogEntry.timestamp := toLocaleTimeString clk;
     LogEntry.message := msg |}.

Definition enqueue (us : list Update) (h : Hooks) : Hooks :=
  {| rendered := rendered h; queue := queue h ++ us |}.

Definition has_id (id : Z) (t : Task.t) : bool := Task.id t =? id.

Definition complete (id : Z) (t : Task.t) : Task.t := snd (mark id false t).

Definition ids (s : Snapshot) : list Z := map Task.id (tasks s).

(** A call made through the functions of the latest render, followed by
    the render it schedules. *)
Inductive Call : Type :=
| AddTask (clk : Clock) (description : string)
| CompleteTask (eager : bool) (clk : Clock) (id : Z)
| ResetSystem (clk : Clock)
| LogOutput (clk : Clock) (msg : string).

Definition step (h : Hooks) (c : Call) : Hooks :=
  match c with
  | AddTask clk d => call (addTask (rendered h) clk d) h
  | CompleteTask eager clk id => call (completeTask eager clk id) h
  | ResetSystem clk => call (resetSystem clk) h
  | LogOutput clk msg => call (logOutput clk msg) h
  end.

Definition run (cs : list Call) (h : Hooks) : Hooks := fold_left step cs h.

(** The identifiers are distinct and below [nextId]. *)
Definition ids_fresh (s : Snapshot) : Prop :=
  NoDup (ids s) /\ Forall (fun i => i < nextId s) (ids s).

(** ** Sample sessions *)

Definition noon : Clock :=
  {| now_plus_random := Qmake 1730635200000 1; toLocaleTimeString := "12:00:00 PM" |}.

(** The session as the mount effect leaves it. *)
Definition mounted : Hooks :=
  call (startup (rendered initial) noon noon noon) initial.

(** A session with one task, as one [addTask] on a fresh session leaves it. *)
Definition one_task : Hooks :=
  call (addTask (rendered initial) noon "A") initial.

(** [completeTask] leaves every matching task after the first as it was. *)
Definition later_matches_unchanged (before after : list Task.t) (id : Z) : Prop :=
  forall i j ti tj,
    (i < j)%nat ->
    nth_error before i = Some ti -> Task.id ti = id ->
    nth_error before j = Some tj -> Task.id tj = id ->
    exists tj', nth_error after j = Some tj'
                /\ Task.completed tj' = Task.completed tj.

(** [completeTask] completes the matched task and leaves every other
    position of the sequence as it was. *)
Definition only_match_changes (before after : list Task.t) (id : Z) : Prop :=
  forall i t,
    nth_error before i = Some t -> Task.id t = id ->
    nth_error after i
    = Some {| Task.id := Task.id t; Task.description := Task.description t;
              Task.completed := true |}
    /\ forall j, j <> i -> nth_error after j = nth_error before j.

(** ** Calls from any render *)

(** What can happen to the hook instance: a call of one of its four
    functions ([addTask] by the [addTask] of whatever render [c]), or a
    render. *)
Inductive Action : Type :=
| DoAddTask (c : Snapshot) (clk : Clock) (description : string)
| DoCompleteTask (eager : bool) (clk : Clock) (id : Z)
| DoResetSystem (clk : Clock)
| DoLogOutput (clk : Clock) (msg : string)
| DoRender.

Definition perform (h : Hooks) (a : Action) : Hooks :=
  match a with
  | DoAddTask c clk d => execState (addTask c clk d) h
  | DoCompleteTask eager clk id => execState (completeTask eager clk id) h
  | DoResetSystem clk => execState (resetSystem clk) h
  | DoLogOutput clk msg => execState (logOutput clk msg) h
  | DoRender => render h
  end.

Definition is_call (a : Action) : bool :=
  match a with
  | DoRender => false
  | _ => true
  end.

Definition is_reset (a : Action) : bool :=
  match a with
  | DoResetSystem _ => true
  | _ => false
  end.

(** A task keeps its id and description, and its flag does not go back
    to [false]. *)
Definition carried_over (t t' : Task.t) : Prop :=
  Task.id t' = Task.id t
  /\ Task.description t' = Task.description t
  /\ (Task.completed t = true -> Task.completed t' = true).

(** ** What [App] and [SystemConsole] show *)

(** [tasks.length], the "Total Tasks" figure. *)
Definition totalTasks (s : Snapshot) : nat := List.length (tasks s).

(** [tasks.filter(t => t.completed).length], the "Completed" figure. *)
Definition completedTasks (s : Snapshot) : nat :=
  List.length (filter Task.completed (tasks s)).

(** [logs.length === 0], the condition of "Waiting for input...". *)
Definition showsWaiting (s : Snapshot) : bool :=
  match logs s with [] => true | _ :: _ => false end.

(** [!task.completed], the condition of the "Mark Complete" button. *)
Definition offersComplete (t : Task.t) : bool := negb (Task.completed t).

(** ** The [App] component *)

(** One [useState] cell outside the hook: its rendered value and the
    actions dispatched since. *)
Record StateCell (S : Type) : Type := {
  value : S;
  updates : list (SetStateAction S)
}.
Arguments value {S} _.
Arguments updates {S} _.

Definition flush {S : Type} (c : StateCell S) : StateCell S :=
  {| value := fold_left basicStateReducer (updates c) (value c); updates := [] |}.

(** [useTaskManager()], [useState("")] and [useState(false)] in [App]. *)
Record App : Type := {
  taskManager : Hooks;
  newTaskInputState : StateCell string;
  showAboutState : StateCell bool
}.

Definition mountApp : App :=
  {| taskManager := initial;
     newTaskInputState := {| value := ""; updates := [] |};
     showAboutState := {| value := false; updates := [] |} |}.

Definition renderApp (a : App) : App :=
  {| taskManager := render (taskManager a);
     newTaskInputState := flush (newTaskInputState a);
     showAboutState := flush (showAboutState a) |}.

(** A function of the hook, called from [App]. *)
Definition inManager {A : Type} (op : state Hooks A) : state App A :=
  a <- get ;;
  let (r, m) := runState op (taskManager a) in
  put {| taskManager := m;
         newTaskInputState := newTaskInputState a;
         showAboutState := showAboutState a |} ;;
  ret r.

Definition setNewTaskInput (act : SetStateAction string) : state App unit :=
  a <- get ;;
  put {| taskManager := taskManager a;
         newTaskInputState :=
           {| value := value (newTaskInputState a);
              updates := updates (newTaskInputState a) ++ [act] |};
         showAboutState := showAboutState a |}.

Definition setShowAbout (act : SetStateAction bool) : state App unit :=
  a <- get ;;
  put {| taskManager := taskManager a;
         newTaskInputState := newTaskInputState a;
         showAboutState :=
           {| value := value (showAboutState a);
              updates := updates (showAboutState a) ++ [act] |} |}.

(** [handleAddTask] as created by a render that saw the hook state [c]
    and the input text [newTaskInput].  [trim] is
    [String.prototype.trim]; the empty string is the one falsy string.
    [e.preventDefault()] acts on the browser only. *)
Definition handleAddTask (trim : string -> string) (c : Snapshot)
  (newTaskInput : string) (clk : Clock) : state App JsValue :=
  if String.eqb (trim newTaskInput) ""
  then ret undefined
  else
    inManager (addTask c clk newTaskInput) ;;
    setNewTaskInput (Value "") ;;
    ret undefined.

(** What the user and the mount timer do to [App]. *)
Inductive Event : Type :=
| TimerFires (k1 k2 k3 : Clock)
| InputChange (text : string)
| FormSubmit (clk : Clock)
| MarkComplete (eager : bool) (clk : Clock) (i : nat)
| MenuExit (clk : Clock)
| MenuAbout
| AboutOk.

(** The handler of an event, taken from the latest render, and the render
    it schedules.  The timer callback is the one of the mount render.
    [MarkComplete i] is a click on the button of the [i]-th listed task,
    which exists only while that task is not completed. *)
Definition handle (trim : string -> string) (a : App) (e : Event) : App :=
  let c := rendered (taskManager a) in
  match e with
  | TimerFires k1 k2 k3 =>
      renderApp (execState (inManager (startup (rendered initial) k1 k2 k3)) a)
  | InputChange text =>
      renderApp (execState (setNewTaskInput (Value text)) a)
  | FormSubmit clk =>
      renderApp (execState
        (handleAddTask trim c (value (newTaskInputState a)) clk) a)
  | MarkComplete eager clk i =>
      match nth_error (tasks c) i with
      | Some t =>
          if offersComplete t
          then renderApp (execState
                 (inManager (completeTask eager clk (Task.id t))) a)
          else a
      | None => a
      end
  | MenuExit clk => renderApp (execState (inManager (resetSystem clk)) a)
  | MenuAbout => renderApp (execState (setShowAbout (Value true)) a)
  | AboutOk => renderApp (execState (setShowAbout (Value false)) a)
  end.

Definition session (trim : string -> string) (es : list Event) : App :=
  fold_left (handle trim) es mountApp.

(** Every id lies between 1 and [nextId], and only the id 1 can occur
    more than once. *)
Definition ids_bounded (s : Snapshot) : Prop :=
  1 <= nextId s
  /\ Forall (fun i => 1 <= i < nextId s) (ids s)
  /\ NoDup (filter (fun i => negb (i =? 1)) (ids s)).

(** [trim] on text whose only blanks are tab, line feed, vertical tab,
    form feed, carriage return and space. *)
Definition is_blank (ch : Ascii.ascii) : bool :=
  let n := Ascii.nat_of_ascii ch in
  ((9 <=? n)%nat && (n <=? 13)%nat) || (n =? 32)%nat.

Fixpoint trimStart (s : string) : string :=
  match s with
  | EmptyString => EmptyString
  | String ch rest => if is_blank ch then trimStart rest else s
  end.

Fixpoint trimEnd (s : string) : string :=
  match s with
  | EmptyString => EmptyString
  | String ch rest =>
      match trimEnd rest with
      | EmptyString => if is_blank ch then EmptyString else String ch EmptyString
      | rest' => String ch rest'
      end
  end.

Definition trim_blanks (s : string) : string := trimEnd (trimStart s).

(** A session in which the mount timer has fired and the user has typed
    "  buy milk " in the input. *)
Definition typed : App :=
  session trim_blanks
    [TimerFires noon noon noon; InputChange "  buy milk "].

(** ** Running the operations *)

Lemma settled_enqueue us h :
  settled (enqueue us h) = fold_left apply_update us (settled h).
Proof. unfold settled, render, enqueue; simpl. apply fold_left_app. Qed.

Lemma exec_logOutput clk msg h :
  execState (logOutput clk msg) h
  = enqueue [SetLogs (Updater (fun prev => prev ++ [entry clk msg]))] h.
Proof. reflexivity. Qed.

Lemma exec_addTask c clk d h :
  execState (addTask c clk d) h
  = enqueue [SetTasks (Updater (fun prev =>
               prev ++ [{| Task.id := nextId c; Task.description := d;
                           Task.completed := false |}]));
             SetNextId (Updater (fun prev => prev + 1));
             SetLogs (Updater (fun prev =>
               prev ++ [entry clk ("Task added: " ++ d)%string]))] h.
Proof.
  unfold enqueue; cbn. now rewrite <- !app_assoc.
Qed.

Lemma exec_resetSystem clk h :
  execState (resetSystem clk) h
  = enqueue [SetTasks (Value []); SetNextId (Value 1); SetLogs (Value []);
             SetLogs (Updater (fun prev => prev ++ [entry clk "System reset."]))] h.
Proof.
  unfold enqueue; cbn. now rewrite <- !app_assoc.
Qed.

Lemma exec_completeTask eager clk id h :
  execState (completeTask eager clk id) h
  = enqueue [SetTasks (Updater (fun prev => snd (map_mark id false prev)));
             SetLogs (Updater (fun prev =>
               prev ++ [entry clk
                 (if invoked_now eager h
                     && fst (map_mark id false (tasks (rendered h)))
                  then ("Task " ++ string_of_Z id ++ " done.")%string
                  else "ID not found.")]))] h.
Proof.
  unfold enqueue, completeTask, execState; simpl.
  destruct (invoked_now eager h); simpl;
    [destruct (fst (map_mark id false (tasks (rendered h)))) |]; simpl;
    now rewrite <- app_assoc.
Qed.

(** *** What [prev.map] computes *)

Lemma map_mark_snd id prev : forall found,
  snd (map_mark id found prev) = map (complete id) prev.
Proof.
  induction prev as [|t rest IH]; intros found; simpl; [reflexivity|].
  unfold complete at 1, mark.
  destruct (Task.id t =? id); simpl.
  - rewrite <- (IH true). now destruct (map_mark id true rest).
  - rewrite <- (IH found). now destruct (map_mark id found rest).
Qed.

Lemma map_mark_fst id prev : forall found,
  fst (map_mark id found prev) = found || existsb (has_id id) prev.
Proof.
  induction prev as [|t rest IH]; intros found; simpl.
  - now rewrite orb_false_r.
  - unfold mark, has_id at 1.
    destruct (Task.id t =? id); simpl.
    + specialize (IH true). destruct (map_mark id true rest); simpl in *.
      rewrite IH. now rewrite orb_true_r.
    + specialize (IH found). destruct (map_mark id found rest); simpl in *.
      exact IH.
Qed.

Lemma complete_id id t : Task.id (complete id t) = Task.id t.
Proof. unfold complete, mark. now destruct (Task.id t =? id). Qed.

Lemma complete_description id t :
  Task.description (complete id t) = Task.description t.
Proof. unfold complete, mark. now destruct (Task.id t =? id). Qed.

Lemma complete_other id t : Task.id t <> id -> complete id t = t.
Proof.
  intros H. unfold complete, mark.
  destruct (Z.eqb_spec (Task.id t) id); [contradiction | reflexivity].
Qed.

Lemma complete_idem id t : complete id (complete id t) = complete id t.
Proof.
  unfold complete, mark.
  destruct (Z.eqb_spec (Task.id t) id) as [E|E]; simpl.
  - now rewrite E, Z.eqb_refl.
  - now destruct (Z.eqb_spec (Task.id t) id).
Qed.

Lemma map_complete_none id l :
  Forall (fun t => Task.id t <> id) l -> map (complete id) l = l.
Proof.
  induction 1 as [|t l Ht _ IH]; simpl; [reflexivity|].
  now rewrite IH, complete_other.
Qed.

Lemma existsb_has_id_false id l :
  Forall (fun t => Task.id t <> id) l -> existsb (has_id id) l = false.
Proof.
  induction 1 as [|t l Ht _ IH]; simpl; [reflexivity|].
  rewrite IH, orb_false_r. unfold has_id. now apply Z.eqb_neq.
Qed.

Lemma invoked_now_idle eager h :
  invoked_now eager h = true -> settled h = rendered h.
Proof.
  unfold invoked_now, settled, render. destruct (queue h); simpl.
  - reflexivity.
  - rewrite andb_false_r. discriminate.
Qed.

(** The state after [completeTask], in terms of the state before. *)
Lemma settled_completeTask eager clk id h :
  settled (execState (completeTask eager clk id) h)
  = {| tasks := map (complete id) (tasks (settled h));
       nextId := nextId (settled h);
       logs := logs (settled h) ++
               [entry clk
                  (if invoked_now eager h && existsb (has_id id) (tasks (settled h))
                   then ("Task " ++ string_of_Z id ++ " done.")%string
                   else "ID not found.")] |}.
Proof.
  rewrite exec_completeTask, settled_enqueue. simpl.
  rewrite map_mark_snd, map_mark_fst. simpl.
  destruct (invoked_now eager h) eqn:E; simpl; [|reflexivity].
  now rewrite (invoked_now_idle _ _ E).
Qed.

(** The entry [completeTask] logs: "done" needs the updater to have run
    inside [setTasks]. *)
Lemma completeTask_log_when_invoked_now eager clk id h :
  invoked_now eager h = true ->
  logs (settled (execState (completeTask eager clk id) h))
  = logs (settled h) ++
    [entry clk (if existsb (has_id id) (tasks (settled h))
                then ("Task " ++ string_of_Z id ++ " done.")%string
                else "ID not found.")].
Proof. intros E. rewrite settled_completeTask. cbn [logs]. now rewrite E. Qed.

Lemma completeTask_log_when_queued eager clk id h :
  invoked_now eager h = false ->
  logs (settled (execState (completeTask eager clk id) h))
  = logs (settled h) ++ [entry clk "ID not found."].
Proof. intros E. rewrite settled_completeTask. cbn [logs]. now rewrite E. Qed.

Lemma settled_addTask c clk d h :
  settled (execState (addTask c clk d) h)
  = {| tasks := tasks (settled h) ++
                [{| Task.id := nextId c; Task.description := d;
                    Task.completed := false |}];
       nextId := nextId (settled h) + 1;
       logs := logs (settled h) ++ [entry clk ("Task added: " ++ d)%string] |}.
Proof. now rewrite exec_addTask, settled_enqueue. Qed.

Lemma settled_logOutput clk msg h :
  settled (execState (logOutput clk msg) h)
  = {| tasks := tasks (settled h);
       nextId := nextId (settled h);
       logs := logs (settled h) ++ [entry clk msg] |}.
Proof. now rewrite exec_logOutput, settled_enqueue. Qed.

Lemma settled_resetSystem clk h :
  settled (execState (resetSystem clk) h)
  = {| tasks := []; nextId := 1; logs := [entry clk "System reset."] |}.
Proof. now rewrite exec_resetSystem, settled_enqueue. Qed.

(** *** Calls made one per render *)

Lemma rendered_render h : rendered (render h) = settled h.
Proof. reflexivity. Qed.

Lemma settled_no_queue h : queue h = [] -> settled h = rendered h.
Proof. unfold settled, render. now intros ->. Qed.

Lemma queue_step h c : queue (step h c) = [].
Proof. now destruct c. Qed.

Lemma rendered_step_add h clk d :
  queue h = [] ->
  rendered (step h (AddTask clk d))
  = {| tasks := tasks (rendered h) ++
                [{| Task.id := nextId (rendered h); Task.description := d;
                    Task.completed := false |}];
       nextId := nextId (rendered h) + 1;
       logs := logs (rendered h) ++ [entry clk ("Task added: " ++ d)%string] |}.
Proof.
  intros Hq. unfold step, call. rewrite rendered_render, settled_addTask.
  now rewrite (settled_no_queue _ Hq).
Qed.

Lemma ids_app s t : map Task.id (s ++ [t]) = map Task.id s ++ [Task.id t].
Proof. now rewrite map_app. Qed.

(** When every [addTask] comes from the latest render, the tasks get the
    consecutive identifiers from [nextId] on. *)
Lemma run_adds_from ds : forall h,
  queue h = [] ->
  let h' := run (map (fun '(clk, d) => AddTask clk d) ds) h in
  ids (rendered h')
  = ids (rendered h)
    ++ map (fun i => nextId (rendered h) + Z.of_nat i) (seq 0 (List.length ds))
  /\ nextId (rendered h') = nextId (rendered h) + Z.of_nat (List.length ds).
Proof.
  induction ds as [|[clk d] ds IH]; intros h Hq; cbv zeta.
  - simpl. rewrite app_nil_r, Z.add_0_r. now split.
  - cbn [map run fold_left List.length].
    specialize (IH (step h (AddTask clk d)) (queue_step _ _)). cbv zeta in IH.
    unfold run in IH. destruct IH as [IHi IHn].
    rewrite IHi, IHn. rewrite (rendered_step_add _ _ _ Hq). unfold ids.
    cbn [tasks nextId]. rewrite ids_app. cbn [Task.id]. split.
    + rewrite <- app_assoc. f_equal. cbn [seq map app]. rewrite Z.add_0_r.
      f_equal. rewrite <- seq_shift, map_map. apply map_ext. intros i. lia.
    + lia.
Qed.

Lemma run_adds_initial ds :
  let h' := run (map (fun '(clk, d) => AddTask clk d) ds) initial in
  ids (rendered h') = map Z.of_nat (seq 1 (List.length ds))
  /\ nextId (rendered h') = Z.of_nat (List.length ds) + 1.
Proof.
  destruct (run_adds_from ds initial eq_refl) as [Hi Hn]. cbv zeta. split.
  - rewrite Hi. cbn [initial rendered ids tasks map app nextId].
    rewrite <- seq_shift, map_map. apply map_ext. intros i. lia.
  - rewrite Hn. cbn [initial rendered nextId]. lia.
Qed.

Lemma ids_map_complete id l : map Task.id (map (complete id) l) = map Task.id l.
Proof. rewrite map_map. apply map_ext. intros t. apply complete_id. Qed.

(** The identifiers stay distinct and below [nextId] as long as every call
    comes from the latest render. *)
Lemma step_ids_fresh h c :
  queue h = [] -> ids_fresh (rendered h) -> ids_fresh (rendered (step h c)).
Proof.
  intros Hq [Hd Hb]. destruct c as [clk d|eager clk id|clk|clk msg].
  - rewrite (rendered_step_add _ _ _ Hq). unfold ids_fresh, ids in *.
    cbn [tasks nextId]. rewrite ids_app. cbn [Task.id]. split.
    + apply NoDup_app; [exact Hd | apply NoDup_cons; [easy | constructor] |].
      intros i Hi [<-|[]]. rewrite Forall_forall in Hb.
      specialize (Hb _ Hi). lia.
    + apply Forall_app. split.
      * eapply Forall_impl; [|exact Hb]. cbv beta. lia.
      * constructor; [lia | constructor].
  - unfold step, call. rewrite rendered_render, settled_completeTask.
    rewrite (settled_no_queue _ Hq). unfold ids_fresh, ids in *.
    cbn [tasks nextId]. now rewrite ids_map_complete.
  - unfold step, call. rewrite rendered_render, settled_resetSystem.
    split; constructor.
  - unfold step, call. rewrite rendered_render, settled_logOutput.
    now rewrite (settled_no_queue _ Hq).
Qed.

Lemma run_ids_fresh cs : forall h,
  queue h = [] -> ids_fresh (rendered h) -> ids_fresh (rendered (run cs h)).
Proof.
  induction cs as [|c cs IH]; intros h Hq Hf; [exact Hf|].
  apply IH; [apply queue_step | now apply step_ids_fresh].
Qed.

(** ** The claims *)

(** C1, on the code: [found] is assigned inside the updater handed to
    [setTasks] and read right after the call.  In a session whose only task
    has id 1, [completeTask(1)] with the updater left in the queue logs
    "ID not found." while the next render shows the task completed; so does
    a [completeTask(1)] that follows another call in the same handler,
    whatever React chooses. *)
Theorem completeTask_existing_id_logged_not_found :
  ids (settled one_task) = [1]
  /\ settled (execState (completeTask false noon 1) one_task)
     = {| tasks := [{| Task.id := 1; Task.description := "A";
                       Task.completed := true |}];
          nextId := 2;
          logs := logs (settled one_task) ++ [entry noon "ID not found."] |}
  /\ forall eager,
       settled (execState (logOutput noon "x" ;; completeTask eager noon 1)
                          one_task)
       = {| tasks := [{| Task.id := 1; Task.description := "A";
                         Task.completed := true |}];
            nextId := 2;
            logs := logs (settled one_task)
                    ++ [entry noon "x"; entry noon "ID not found."] |}.
Proof.
  split; [reflexivity|]. split; [reflexivity|].
  intros eager. now destruct eager.
Qed.

(** C2, on the code: two [addTask] calls made by the functions of one
    render both read that render's [nextId], so both tasks get the same
    id; from the initial session the second task gets id 1 again, and
    [nextId] becomes 3. *)
Theorem addTask_twice_in_one_render_repeats_id k1 k2 d1 d2 :
  (forall c h,
     let s := settled (execState (addTask c k1 d1 ;; addTask c k2 d2) h) in
     tasks s
     = tasks (settled h)
       ++ [{| Task.id := nextId c; Task.description := d1;
              Task.completed := false |};
           {| Task.id := nextId c; Task.description := d2;
              Task.completed := false |}]
     /\ nextId s = nextId (settled h) + 2)
  /\ settled (execState (addTask (rendered initial) k1 d1 ;;
                         addTask (rendered initial) k2 d2) initial)
     = {| tasks := [{| Task.id := 1; Task.description := d1;
                       Task.completed := false |};
                    {| Task.id := 1; Task.description := d2;
                       Task.completed := false |}];
          nextId := 3;
          logs := [entry k1 ("Task added: " ++ d1)%string;
                   entry k2 ("Task added: " ++ d2)%string] |}.
Proof.
  split; [|reflexivity].
  intros c h. cbv zeta.
  change (execState (addTask c k1 d1 ;; addTask c k2 d2) h)
    with (execState (addTask c k2 d2) (execState (addTask c k1 d1) h)).
  rewrite !settled_addTask. cbn [tasks nextId]. split.
  - now rewrite <- app_assoc.
  - lia.
Qed.

(** C3: after [resetSystem], from any session state, [tasks] is empty,
    [nextId] is 1 and [logs] is the single entry "System reset.". *)
Theorem resetSystem_leaves_one_log clk h :
  let s := settled (execState (resetSystem clk) h) in
  tasks s = []
  /\ nextId s = 1
  /\ logs s = [{| LogEntry.id := now_plus_random clk;
                  LogEntry.timestamp := toLocaleTimeString clk;
                  LogEntry.message := "System reset." |}].
Proof. cbv zeta. rewrite settled_resetSystem. now repeat split. Qed.

(** C4, on the code: the mount effect calls [addTask] twice through the
    functions of the mount render, so the session it leaves holds two tasks
    with id 1. *)
Theorem startup_assigns_one_id_twice k1 k2 k3 :
  let s := settled (execState (startup (rendered initial) k1 k2 k3) initial) in
  ids s = [1; 1] /\ nextId s = 3 /\ ~ NoDup (ids s).
Proof.
  cbv zeta. split; [reflexivity|]. split; [reflexivity|].
  intros H. change (NoDup [1; 1]) in H. inversion H as [|x l Hin _]; subst.
  apply Hin. now left.
Qed.

(** C5, as stated, fails: in the session the mount effect leaves, both
    tasks have id 1, and [completeTask(1)] completes the second one too. *)
Lemma completeTask_changes_later_match :
  ~ later_matches_unchanged
      (tasks (settled mounted))
      (tasks (settled (execState (completeTask true noon 1) mounted)))
      1.
Proof.
  intros H.
  destruct (H 0%nat 1%nat _ _ (Nat.lt_0_1) eq_refl eq_refl eq_refl eq_refl)
    as [tj' [E1 E2]].
  cbv in E1. injection E1 as <-. discriminate E2.
Qed.

(** C5, amended: [completeTask(id)] sets [completed] on every task whose id
    is [id], at whatever position, and leaves its id and description. *)
Theorem completeTask_marks_every_match eager clk id h i t :
  nth_error (tasks (settled h)) i = Some t ->
  Task.id t = id ->
  nth_error (tasks (settled (execState (completeTask eager clk id) h))) i
  = Some {| Task.id := Task.id t; Task.description := Task.description t;
            Task.completed := true |}.
Proof.
  intros Hi Ht. rewrite settled_completeTask. cbn [tasks].
  rewrite nth_error_map, Hi. cbn [option_map]. f_equal.
  unfold complete, mark. destruct (Z.eqb_spec (Task.id t) id); easy.
Qed.

Lemma completeTask_marks_every_match_witness :
  nth_error (tasks (settled mounted)) 1
  = Some {| Task.id := 1; Task.description := "Upload Multiple Files";
            Task.completed := false |}
  /\ nth_error (tasks (settled (execState (completeTask true noon 1) mounted))) 1
     = Some {| Task.id := 1; Task.description := "Upload Multiple Files";
               Task.completed := true |}.
Proof.
  split; [reflexivity|].
  exact (completeTask_marks_every_match true noon 1 mounted 1
           {| Task.id := 1; Task.description := "Upload Multiple Files";
              Task.completed := false |} eq_refl eq_refl).
Defined.

(** C6, as stated, fails: with a task of id 1 in the session,
    [completeTask(1)] does not evaluate to a boolean. *)
Lemma completeTask_result_not_boolean :
  existsb (has_id 1) (tasks (settled one_task)) = true
  /\ forall b, evalState (completeTask true noon 1) one_task <> boolean b.
Proof. split; [reflexivity | intros b; discriminate]. Qed.

(** C6, amended: [completeTask] evaluates to [undefined], for every id and
    session state. *)
Theorem completeTask_returns_undefined eager clk id h :
  evalState (completeTask eager clk id) h = undefined.
Proof.
  unfold completeTask, evalState; simpl.
  destruct (invoked_now eager h); simpl;
    [destruct (fst (map_mark id false (tasks (rendered h)))) |]; reflexivity.
Qed.

(** C7: when no task has the id, [completeTask(id)] leaves the task
    sequence and [nextId] as they were and appends the one log entry
    "ID not found.". *)
Theorem completeTask_unknown_id eager clk id h :
  Forall (fun t => Task.id t <> id) (tasks (settled h)) ->
  settled (execState (completeTask eager clk id) h)
  = {| tasks := tasks (settled h);
       nextId := nextId (settled h);
       logs := logs (settled h)
               ++ [{| LogEntry.id := now_plus_random clk;
                      LogEntry.timestamp := toLocaleTimeString clk;
                      LogEntry.message := "ID not found." |}] |}.
Proof.
  intros H. rewrite settled_completeTask.
  rewrite (map_complete_none _ _ H), (existsb_has_id_false _ _ H).
  now rewrite andb_false_r.
Qed.

Lemma completeTask_unknown_id_witness :
  Forall (fun t => Task.id t <> 99) (tasks (settled mounted))
  /\ settled (execState (completeTask true noon 99) mounted)
     = {| tasks := tasks (settled mounted);
          nextId := 3;
          logs := logs (settled mounted) ++ [entry noon "ID not found."] |}.
Proof.
  assert (H : Forall (fun t => Task.id t <> 99) (tasks (settled mounted))).
  { repeat constructor; discriminate. }
  split; [exact H|].
  exact (completeTask_unknown_id true noon 99 mounted H).
Defined.

(** C8, as stated, fails: in the session the mount effect leaves,
    [completeTask(1)] matches the first task and changes the second as
    well. *)
Lemma completeTask_changes_another_task :
  ~ only_match_changes
      (tasks (settled mounted))
      (tasks (settled (execState (completeTask true noon 1) mounted)))
      1.
Proof.
  intros H. destruct (H 0%nat _ eq_refl eq_refl) as [_ Hrest].
  specialize (Hrest 1%nat (Nat.neq_succ_0 0)). discriminate Hrest.
Qed.

(** C8, amended: [completeTask(id)] sets [completed] on every task whose
    id is [id] and leaves the tasks with another id, and every id and
    description, as they were; a second [completeTask(id)], in the same
    handler or after a render, leaves the tasks as the first one did. *)
Theorem completeTask_sets_flag_of_matches eager1 eager2 k1 k2 id h :
  let set_completed (t : Task.t) :=
    if Task.id t =? id
    then {| Task.id := Task.id t; Task.description := Task.description t;
            Task.completed := true |}
    else t in
  let h1 := execState (completeTask eager1 k1 id) h in
  tasks (settled h1) = map set_completed (tasks (settled h))
  /\ tasks (settled (execState (completeTask eager2 k2 id) h1))
     = tasks (settled h1)
  /\ tasks (settled (execState (completeTask eager2 k2 id) (render h1)))
     = tasks (settled h1).
Proof.
  cbv zeta.
  assert (Hc : forall l, map (complete id) (map (complete id) l)
                         = map (complete id) l).
  { intros l. rewrite map_map. apply map_ext. intros t. apply complete_idem. }
  split; [|split].
  - rewrite settled_completeTask. cbn [tasks]. apply map_ext. intros t.
    unfold complete, mark. now destruct (Task.id t =? id).
  - rewrite !settled_completeTask. cbn [tasks]. apply Hc.
  - rewrite settled_completeTask. cbn [tasks].
    change (settled (render (execState (completeTask eager1 k1 id) h)))
      with (settled (execState (completeTask eager1 k1 id) h)).
    rewrite settled_completeTask. cbn [tasks]. apply Hc.
Qed.

(** C9: [addTask] and [completeTask] each make [logs] one entry longer,
    [resetSystem] leaves [logs] with one entry, and [addTask],
    [completeTask] and [logOutput] keep every log entry and every task
    (its id and description) in place. *)
Theorem logs_grow_by_one c eager clk d id msg h :
  let kept (before after : Snapshot) :=
    (exists l, logs after = logs before ++ l)
    /\ (exists l, map (fun t => (Task.id t, Task.description t)) (tasks after)
                  = map (fun t => (Task.id t, Task.description t)) (tasks before)
                    ++ l) in
  let added := settled (execState (addTask c clk d) h) in
  let completed := settled (execState (completeTask eager clk id) h) in
  let reset := settled (execState (resetSystem clk) h) in
  let logged := settled (execState (logOutput clk msg) h) in
  List.length (logs added) = S (List.length (logs (settled h)))
  /\ List.length (logs completed) = S (List.length (logs (settled h)))
  /\ List.length (logs reset) = 1%nat
  /\ kept (settled h) added
  /\ kept (settled h) completed
  /\ kept (settled h) logged.
Proof.
  cbv zeta.
  rewrite settled_addTask, settled_completeTask, settled_resetSystem,
    settled_logOutput. cbn [tasks logs].
  rewrite !length_app. cbn [List.length].
  repeat split; try lia; try (eexists; reflexivity).
  - eexists. now rewrite map_app.
  - exists []. rewrite app_nil_r, map_map. apply map_ext. intros t.
    now rewrite complete_id, complete_description.
  - exists []. now rewrite app_nil_r.
Qed.

(** C10: [logOutput(message)] appends one entry with that message to
    [logs] and leaves [tasks] and [nextId] as they were. *)
Theorem logOutput_changes_logs_only clk msg h :
  let s := settled h in
  let s' := settled (execState (logOutput clk msg) h) in
  tasks s' = tasks s
  /\ nextId s' = nextId s
  /\ logs s' = logs s ++ [{| LogEntry.id := now_plus_random clk;
                             LogEntry.timestamp := toLocaleTimeString clk;
                             LogEntry.message := msg |}].
Proof. cbv zeta. rewrite settled_logOutput. now repeat split. Qed.

(** ** Further properties of the hook *)

Lemma settled_render h : settled (render h) = settled h.
Proof. reflexivity. Qed.

(** [tasks.length + 1 = nextId]: kept by every call, from whatever render
    its function comes, and by every render. *)
Lemma perform_keeps_count h a :
  nextId (settled h) = Z.of_nat (List.length (tasks (settled h))) + 1 ->
  nextId (settled (perform h a))
  = Z.of_nat (List.length (tasks (settled (perform h a)))) + 1.
Proof.
  intros H. destruct a as [c clk d|eager clk id|clk|clk msg|]; cbn [perform].
  - rewrite settled_addTask. cbn [tasks nextId].
    rewrite length_app. cbn [List.length]. lia.
  - rewrite settled_completeTask. cbn [tasks nextId].
    now rewrite length_map.
  - now rewrite settled_resetSystem.
  - now rewrite settled_logOutput.
  - now rewrite settled_render.
Qed.

(** X1: after any sequence of calls and renders on a fresh hook, [nextId]
    is the number of tasks plus one. *)
Theorem nextId_is_task_count_plus_one acts :
  let s := settled (fold_left perform acts initial) in
  nextId s = Z.of_nat (List.length (tasks s)) + 1.
Proof.
  cbv zeta.
  assert (G : forall h,
             nextId (settled h) = Z.of_nat (List.length (tasks (settled h))) + 1 ->
             nextId (settled (fold_left perform acts h))
             = Z.of_nat (List.length (tasks (settled (fold_left perform acts h)))) + 1).
  { induction acts as [|a acts IH]; intros h H; [exact H|].
    cbn [fold_left]. apply IH. now apply perform_keeps_count. }
  apply G. reflexivity.
Qed.

Lemma carried_over_refl t : carried_over t t.
Proof. now repeat split. Qed.

Lemma carried_over_trans t1 t2 t3 :
  carried_over t1 t2 -> carried_over t2 t3 -> carried_over t1 t3.
Proof.
  intros (Hi & Hd & Hc) (Hi' & Hd' & Hc'). repeat split; try congruence.
  auto.
Qed.

Lemma carried_over_complete id t : carried_over t (complete id t).
Proof.
  unfold carried_over. rewrite complete_id, complete_description.
  repeat split. unfold complete, mark.
  now destruct (Task.id t =? id).
Qed.

Lemma perform_carries h a i t :
  is_reset a = false ->
  nth_error (tasks (settled h)) i = Some t ->
  exists t', nth_error (tasks (settled (perform h a))) i = Some t'
             /\ carried_over t t'.
Proof.
  intros Ha Hi.
  destruct a as [c clk d|eager clk id|clk|clk msg|]; cbn [perform];
    try discriminate Ha.
  - rewrite settled_addTask. cbn [tasks]. exists t. split.
    + rewrite nth_error_app1; [exact Hi|].
      apply nth_error_Some. congruence.
    + apply carried_over_refl.
  - rewrite settled_completeTask. cbn [tasks]. exists (complete id t). split.
    + now rewrite nth_error_map, Hi.
    + apply carried_over_complete.
  - rewrite settled_logOutput. cbn [tasks]. exists t.
    split; [exact Hi | apply carried_over_refl].
  - rewrite settled_render. exists t.
    split; [exact Hi | apply carried_over_refl].
Qed.

(** X2: short of [resetSystem], no sequence of calls and renders moves or
    drops a task, changes its id or description, or turns its
    [completed] flag back to [false]. *)
Theorem tasks_carried_over_without_reset acts : forall h i t,
  forallb (fun a => negb (is_reset a)) acts = true ->
  nth_error (tasks (settled h)) i = Some t ->
  exists t', nth_error (tasks (settled (fold_left perform acts h))) i = Some t'
             /\ carried_over t t'.
Proof.
  induction acts as [|a acts IH]; intros h i t Hacts Hi.
  - exists t. split; [exact Hi | apply carried_over_refl].
  - cbn [forallb] in Hacts. apply andb_prop in Hacts as [Ha Hacts].
    apply negb_true_iff in Ha.
    destruct (perform_carries h a i t Ha Hi) as (t1 & H1 & C1).
    destruct (IH (perform h a) i t1 Hacts H1) as (t2 & H2 & C2).
    exists t2. split; [exact H2 | now apply carried_over_trans with t1].
Qed.

Lemma tasks_carried_over_without_reset_witness :
  nth_error (tasks (settled mounted)) 0
  = Some {| Task.id := 1; Task.description := "Refactor Legacy Code";
            Task.completed := false |}
  /\ exists t',
       nth_error (tasks (settled
         (fold_left perform
            [DoCompleteTask true noon 1; DoRender;
             DoAddTask (rendered mounted) noon "B"; DoCompleteTask false noon 7]
            mounted))) 0 = Some t'
       /\ carried_over {| Task.id := 1; Task.description := "Refactor Legacy Code";
                          Task.completed := false |} t'.
Proof.
  split; [reflexivity|].
  exact (tasks_carried_over_without_reset
           [DoCompleteTask true noon 1; DoRender;
            DoAddTask (rendered mounted) noon "B"; DoCompleteTask false noon 7]
           mounted 0%nat _ eq_refl eq_refl).
Defined.

Lemma perform_appends_log h a :
  is_reset a = false ->
  exists l, logs (settled (perform h a)) = logs (settled h) ++ l
            /\ List.length l = (if is_call a then 1 else 0)%nat.
Proof.
  intros Ha.
  destruct a as [c clk d|eager clk id|clk|clk msg|]; cbn [perform is_call];
    try discriminate Ha.
  - rewrite settled_addTask. cbn [logs]. now eexists.
  - rewrite settled_completeTask. cbn [logs]. now eexists.
  - rewrite settled_logOutput. cbn [logs]. now eexists.
  - rewrite settled_render. exists []. now rewrite app_nil_r.
Qed.

(** X3: short of [resetSystem], a sequence of calls and renders keeps the
    log entries there were, in place, and appends one entry per call. *)
Theorem logs_grow_one_per_call acts : forall h,
  forallb (fun a => negb (is_reset a)) acts = true ->
  exists l, logs (settled (fold_left perform acts h)) = logs (settled h) ++ l
            /\ List.length l = List.length (filter is_call acts).
Proof.
  induction acts as [|a acts IH]; intros h Hacts.
  - exists []. now rewrite app_nil_r.
  - cbn [forallb] in Hacts. apply andb_prop in Hacts as [Ha Hacts].
    apply negb_true_iff in Ha.
    destruct (perform_appends_log h a Ha) as (l1 & E1 & L1).
    destruct (IH (perform h a) Hacts) as (l2 & E2 & L2).
    exists (l1 ++ l2). cbn [fold_left filter]. split.
    + now rewrite E2, E1, app_assoc.
    + rewrite length_app, L1, L2. now destruct (is_call a).
Qed.

Lemma logs_grow_one_per_call_witness :
  exists l,
    logs (settled (fold_left perform
            [DoLogOutput noon "x"; DoRender; DoCompleteTask false noon 1]
            mounted))
    = logs (settled mounted) ++ l
    /\ List.length l = 2%nat.
Proof.
  exact (logs_grow_one_per_call
           [DoLogOutput noon "x"; DoRender; DoCompleteTask false noon 1]
           mounted eq_refl).
Defined.

Lemma showsWaiting_app l e s :
  logs s = l ++ [e] -> showsWaiting s = false.
Proof. unfold showsWaiting. intros ->. now destruct l. Qed.

Lemma perform_call_logs h a :
  is_call a = true -> showsWaiting (settled (perform h a)) = false.
Proof.
  intros Ha.
  destruct a as [c clk d|eager clk id|clk|clk msg|]; cbn [perform];
    try discriminate Ha.
  - eapply showsWaiting_app. rewrite settled_addTask. reflexivity.
  - eapply showsWaiting_app. rewrite settled_completeTask. reflexivity.
  - now rewrite settled_resetSystem.
  - eapply showsWaiting_app. rewrite settled_logOutput. reflexivity.
Qed.

Lemma perform_keeps_logs h a :
  showsWaiting (settled h) = false ->
  showsWaiting (settled (perform h a)) = false.
Proof.
  intros H. destruct (is_call a) eqn:Ha; [now apply perform_call_logs|].
  destruct a; try discriminate Ha. exact H.
Qed.

(** X4: once any function of the hook has been called, [logs] is never
    empty again, whatever follows, [resetSystem] included: the console
    does not return to "Waiting for input...". *)
Theorem console_waits_only_before_first_call acts : forall a h,
  is_call a = true ->
  showsWaiting (settled (fold_left perform acts (perform h a))) = false.
Proof.
  intros a h Ha. pose proof (perform_call_logs h a Ha) as H.
  revert H. generalize (perform h a). clear h a Ha.
  induction acts as [|a acts IH]; intros h H; [exact H|].
  cbn [fold_left]. apply IH. now apply perform_keeps_logs.
Qed.

Lemma console_waits_only_before_first_call_witness :
  showsWaiting (settled initial) = true
  /\ showsWaiting (settled (fold_left perform
       [DoRender; DoResetSystem noon; DoRender]
       (perform initial (DoAddTask (rendered initial) noon "A")))) = false.
Proof.
  split; [reflexivity|].
  exact (console_waits_only_before_first_call
           [DoRender; DoResetSystem noon; DoRender]
           (DoAddTask (rendered initial) noon "A") initial eq_refl).
Defined.

Lemma execState_bind {S A B : Type} (x : state S A) (f : A -> state S B) s :
  execState (bind x f) s = execState (f (evalState x s)) (execState x s).
Proof.
  unfold execState, evalState; simpl. now destruct (runState x s).
Qed.

Lemma complete_comm id1 id2 t :
  complete id1 (complete id2 t) = complete id2 (complete id1 t).
Proof.
  unfold complete, mark.
  destruct (Task.id t =? id1) eqn:E1, (Task.id t =? id2) eqn:E2;
    cbn [snd Task.id]; now rewrite ?E1, ?E2.
Qed.

(** X5: two [completeTask] calls in one handler leave the same tasks and
    [nextId] in either order. *)
Theorem completeTask_order_is_immaterial e1 e2 k1 k2 id1 id2 h :
  let a := settled (execState (completeTask e1 k1 id1 ;; completeTask e2 k2 id2) h) in
  let b := settled (execState (completeTask e2 k2 id2 ;; completeTask e1 k1 id1) h) in
  tasks a = tasks b /\ nextId a = nextId b.
Proof.
  cbv zeta.
  rewrite !execState_bind, !settled_completeTask. cbn [tasks nextId]. split; [|reflexivity].
  rewrite !map_map. apply map_ext. intros t. apply complete_comm.
Qed.

Lemma completed_after_map id l :
  List.length (filter Task.completed (map (complete id) l))
  = (List.length (filter Task.completed l)
     + List.length (filter (fun t => has_id id t && offersComplete t) l))%nat.
Proof.
  induction l as [|t l IH]; [reflexivity|].
  cbn [map filter]. unfold complete at 1, mark, has_id at 1, offersComplete at 1.
  destruct (Task.id t =? id), (Task.completed t) eqn:Ec;
    cbn [snd Task.completed andb negb List.length]; rewrite ?Ec;
    cbn [List.length]; rewrite IH; lia.
Qed.

(** X6: the two figures of the stats widget.  [completeTask(id)] leaves
    "Total Tasks" as it is and raises "Completed" by the number of tasks
    with that id that were not completed; [addTask] raises "Total Tasks"
    by one and leaves "Completed"; [resetSystem] sets both to 0. *)
Theorem stats_after_each_operation c eager clk d id h :
  let s := settled h in
  let completed := settled (execState (completeTask eager clk id) h) in
  let added := settled (execState (addTask c clk d) h) in
  let reset := settled (execState (resetSystem clk) h) in
  totalTasks completed = totalTasks s
  /\ completedTasks completed
     = (completedTasks s
        + List.length (filter (fun t => has_id id t && offersComplete t) (tasks s)))%nat
  /\ totalTasks added = S (totalTasks s)
  /\ completedTasks added = completedTasks s
  /\ totalTasks reset = 0%nat
  /\ completedTasks reset = 0%nat.
Proof.
  cbv zeta. unfold totalTasks, completedTasks.
  rewrite settled_completeTask, settled_addTask, settled_resetSystem.
  cbn [tasks]. repeat split.
  - apply length_map.
  - apply completed_after_map.
  - rewrite length_app. cbn [List.length]. lia.
  - rewrite filter_app. cbn [filter Task.completed]. now rewrite app_nil_r.
Qed.

(** X7: when React runs the updater inside [setTasks], the entry
    [completeTask(id)] appends is "Task {id} done." exactly when a task
    has the id, and "ID not found." exactly when none has. *)
Theorem completeTask_log_is_right_when_updater_runs_at_once eager clk id h :
  invoked_now eager h = true ->
  exists e,
    logs (settled (execState (completeTask eager clk id) h))
    = logs (settled h) ++ [e]
    /\ (LogEntry.message e = ("Task " ++ string_of_Z id ++ " done.")%string
        <-> exists t, In t (tasks (settled h)) /\ Task.id t = id)
    /\ (LogEntry.message e = "ID not found."
        <-> forall t, In t (tasks (settled h)) -> Task.id t <> id).
Proof.
  intros E. rewrite settled_completeTask, E. cbn [logs andb].
  eexists. split; [reflexivity|].
  destruct (existsb (has_id id) (tasks (settled h))) eqn:X;
    cbn [entry LogEntry.message].
  - apply existsb_exists in X as (t & Hin & Ht).
    apply Z.eqb_eq in Ht. split; split.
    + intros _. now exists t.
    + reflexivity.
    + discriminate.
    + intros H. now destruct (H t Hin).
  - assert (N : forall t, In t (tasks (settled h)) -> Task.id t <> id).
    { intros t Hin Ht.
      assert (existsb (has_id id) (tasks (settled h)) = true); [|congruence].
      apply existsb_exists. exists t. split; [exact Hin|].
      now apply Z.eqb_eq. }
    split; split.
    + discriminate.
    + intros (t & Hin & Ht). now destruct (N t Hin).
    + intros _. exact N.
    + reflexivity.
Qed.

Lemma completeTask_log_is_right_when_updater_runs_at_once_witness :
  invoked_now true one_task = true
  /\ exists e,
       logs (settled (execState (completeTask true noon 1) one_task))
       = logs (settled one_task) ++ [e]
       /\ (LogEntry.message e = "Task 1 done."
           <-> exists t, In t (tasks (settled one_task)) /\ Task.id t = 1)
       /\ (LogEntry.message e = "ID not found."
           <-> forall t, In t (tasks (settled one_task)) -> Task.id t <> 1).
Proof.
  split; [reflexivity|].
  exact (completeTask_log_is_right_when_updater_runs_at_once
           true noon 1 one_task eq_refl).
Defined.

(** X8: when every call comes from the functions of the latest render and
    is followed by a render, the task ids are pairwise distinct and below
    [nextId] in every state a fresh hook reaches. *)
Theorem ids_fresh_when_one_call_per_render cs :
  queue (run cs initial) = []
  /\ NoDup (ids (rendered (run cs initial)))
  /\ Forall (fun i => i < nextId (rendered (run cs initial)))
       (ids (rendered (run cs initial))).
Proof.
  split.
  - destruct cs as [|c cs] using rev_ind; [reflexivity|].
    unfold run. rewrite fold_left_app. apply queue_step.
  - apply (run_ids_fresh cs initial eq_refl). split; constructor.
Qed.

Lemma run_adds_descriptions ds : forall h,
  queue h = [] ->
  map Task.description
    (tasks (rendered (run (map (fun '(clk, d) => AddTask clk d) ds) h)))
  = map Task.description (tasks (rendered h)) ++ map snd ds.
Proof.
  induction ds as [|[clk d] ds IH]; intros h Hq.
  - cbn. now rewrite app_nil_r.
  - cbn [map run fold_left]. unfold run in IH.
    rewrite (IH _ (queue_step _ _)), (rendered_step_add _ _ _ Hq).
    cbn [tasks snd]. rewrite map_app. cbn [map Task.description].
    now rewrite <- app_assoc.
Qed.

(** X9: when each [addTask] comes from the latest render, the tasks of a
    fresh hook after [n] calls carry the ids 1 to [n] and the given
    descriptions, in call order, and [nextId] is [n + 1]. *)
Theorem addTask_per_render_numbers_from_one ds :
  let h := run (map (fun '(clk, d) => AddTask clk d) ds) initial in
  ids (rendered h) = map Z.of_nat (seq 1 (List.length ds))
  /\ map Task.description (tasks (rendered h)) = map snd ds
  /\ nextId (rendered h) = Z.of_nat (List.length ds) + 1.
Proof.
  cbv zeta. destruct (run_adds_initial ds) as [Hi Hn].
  split; [exact Hi|]. split; [|exact Hn].
  now rewrite (run_adds_descriptions ds initial eq_refl).
Qed.

(** ** Properties of [App] *)

Lemma exec_inManager {A : Type} (op : state Hooks A) a :
  execState (inManager op) a
  = {| taskManager := execState op (taskManager a);
       newTaskInputState := newTaskInputState a;
       showAboutState := showAboutState a |}.
Proof.
  unfold inManager, execState; simpl. now destruct (runState op (taskManager a)).
Qed.

Lemma flush_set {S : Type} (c : StateCell S) v :
  value (flush {| value := value c; updates := updates c ++ [Value v] |}) = v.
Proof. unfold flush; simpl. now rewrite fold_left_app. Qed.

(** X10: submitting the form while the input is empty or all blanks
    dispatches nothing: no task, no log entry, and the input keeps its
    text. *)
Theorem handleAddTask_ignores_blank_input trim c text clk a :
  trim text = "" ->
  runState (handleAddTask trim c text clk) a = (undefined, a).
Proof. intros H. unfold handleAddTask. now rewrite H. Qed.

Lemma handleAddTask_ignores_blank_input_witness :
  trim_blanks "   " = ""
  /\ runState (handleAddTask trim_blanks (rendered (taskManager typed)) "   " noon)
       typed
     = (undefined, typed).
Proof.
  split; [reflexivity|].
  exact (handleAddTask_ignores_blank_input trim_blanks
           (rendered (taskManager typed)) "   " noon typed eq_refl).
Defined.

(** X11: submitting any other text appends one task whose description is
    the text as typed, blanks at its ends included, with the [nextId] of
    the handler's render; it logs "Task added: " followed by that text,
    empties the input and leaves the About dialog alone. *)
Theorem handleAddTask_adds_text_as_typed trim c text clk a :
  trim text <> "" ->
  let a' := execState (handleAddTask trim c text clk) a in
  settled (taskManager a')
  = {| tasks := tasks (settled (taskManager a))
                ++ [{| Task.id := nextId c; Task.description := text;
                       Task.completed := false |}];
       nextId := nextId (settled (taskManager a)) + 1;
       logs := logs (settled (taskManager a))
               ++ [entry clk ("Task added: " ++ text)%string] |}
  /\ value (flush (newTaskInputState a')) = ""
  /\ showAboutState a' = showAboutState a.
Proof.
  intros H. apply String.eqb_neq in H. cbv zeta.
  unfold handleAddTask. rewrite H.
  rewrite !execState_bind, exec_inManager.
  cbn [execState runState setNewTaskInput bind get put ret Monad_state
       MonadState_state taskManager newTaskInputState showAboutState snd].
  rewrite settled_addTask. split; [reflexivity|]. split; [|reflexivity].
  apply flush_set.
Qed.

Lemma handleAddTask_adds_text_as_typed_witness :
  trim_blanks "  buy milk " <> ""
  /\ tasks (settled (taskManager (execState
       (handleAddTask trim_blanks (rendered (taskManager typed))
          "  buy milk " noon) typed)))
     = tasks (settled (taskManager typed))
       ++ [{| Task.id := 3; Task.description := "  buy milk ";
              Task.completed := false |}].
Proof.
  assert (H : trim_blanks "  buy milk " <> "") by discriminate.
  split; [exact H|].
  exact (f_equal tasks
           (proj1 (handleAddTask_adds_text_as_typed trim_blanks
                     (rendered (taskManager typed)) "  buy milk " noon typed H))).
Defined.

(** X12: "Exit" resets the hook and touches neither the text in the input
    nor the About dialog; typing, "About..." and the dialog's "OK" leave
    [tasks], [nextId] and [logs] as they are. *)
Theorem exit_resets_the_hook_only trim clk text a :
  let a' := handle trim a (MenuExit clk) in
  rendered (taskManager a')
  = {| tasks := []; nextId := 1; logs := [entry clk "System reset."] |}
  /\ value (newTaskInputState a') = value (flush (newTaskInputState a))
  /\ value (showAboutState a') = value (flush (showAboutState a))
  /\ rendered (taskManager (handle trim a (InputChange text)))
     = settled (taskManager a)
  /\ rendered (taskManager (handle trim a MenuAbout)) = settled (taskManager a)
  /\ rendered (taskManager (handle trim a AboutOk)) = settled (taskManager a).
Proof.
  cbv zeta. cbn [handle]. rewrite exec_inManager.
  cbn [renderApp taskManager newTaskInputState showAboutState].
  rewrite rendered_render, settled_resetSystem. now repeat split.
Qed.

Lemma ids_bounded_reset l : ids_bounded {| tasks := []; nextId := 1; logs := l |}.
Proof. repeat split; try constructor. cbn. lia. Qed.

Lemma ids_bounded_complete s id l :
  ids_bounded s ->
  ids_bounded {| tasks := map (complete id) (tasks s); nextId := nextId s;
                 logs := l |}.
Proof.
  unfold ids_bounded, ids. cbn [tasks nextId]. now rewrite ids_map_complete.
Qed.

Lemma ids_bounded_add s d l :
  ids_bounded s ->
  ids_bounded {| tasks := tasks s ++ [{| Task.id := nextId s;
                                        Task.description := d;
                                        Task.completed := false |}];
                 nextId := nextId s + 1; logs := l |}.
Proof.
  unfold ids_bounded, ids. cbn [tasks nextId]. intros (Hn & Hb & Hd).
  rewrite ids_app. cbn [Task.id]. split; [lia|]. split.
  - apply Forall_app. split.
    + eapply Forall_impl; [|exact Hb]. cbv beta. lia.
    + constructor; [lia | constructor].
  - rewrite filter_app. apply NoDup_app; [exact Hd | |].
    + cbn [filter]. destruct (negb (nextId s =? 1)); repeat constructor. easy.
    + intros i Hi Hi'. apply filter_In in Hi as [Hi _], Hi' as [Hi' _].
      destruct Hi' as [<-|[]]. rewrite Forall_forall in Hb.
      specialize (Hb _ Hi). lia.
Qed.

Lemma ids_bounded_timer s d1 d2 l :
  ids_bounded s ->
  ids_bounded {| tasks := (tasks s ++ [{| Task.id := 1; Task.description := d1;
                                         Task.completed := false |}])
                          ++ [{| Task.id := 1; Task.description := d2;
                                 Task.completed := false |}];
                 nextId := nextId s + 1 + 1; logs := l |}.
Proof.
  unfold ids_bounded, ids. cbn [tasks nextId]. intros (Hn & Hb & Hd).
  rewrite !ids_app. cbn [Task.id]. split; [lia|]. split.
  - rewrite !Forall_app. repeat split.
    + eapply Forall_impl; [|exact Hb]. cbv beta. lia.
    + constructor; [lia | constructor].
    + constructor; [lia | constructor].
  - rewrite !filter_app. cbn [filter Z.eqb Pos.eqb negb]. now rewrite !app_nil_r.
Qed.

Lemma settled_startup c k1 k2 k3 h :
  settled (execState (startup c k1 k2 k3) h)
  = {| tasks := (tasks (settled h)
                 ++ [{| Task.id := nextId c;
                        Task.description := "Refactor Legacy Code";
                        Task.completed := false |}])
                ++ [{| Task.id := nextId c;
                       Task.description := "Upload Multiple Files";
                       Task.completed := false |}];
       nextId := nextId (settled h) + 1 + 1;
       logs := ((logs (settled h) ++ [entry k1 "Initializing TaskManager..."])
                ++ [entry k2 "Task added: Refactor Legacy Code"])
               ++ [entry k3 "Task added: Upload Multiple Files"] |}.
Proof.
  unfold startup. rewrite !execState_bind.
  now rewrite settled_addTask, settled_addTask, settled_logOutput.
Qed.

Lemma handle_keeps_ids_bounded trim a e :
  queue (taskManager a) = [] ->
  ids_bounded (rendered (taskManager a)) ->
  queue (taskManager (handle trim a e)) = []
  /\ ids_bounded (rendered (taskManager (handle trim a e))).
Proof.
  intros Hq Hb. pose proof (settled_no_queue _ Hq) as Hs.
  destruct e as [k1 k2 k3|text|clk|eager clk i|clk| |]; cbn [handle].
  - rewrite exec_inManager. cbn [renderApp taskManager]. split; [reflexivity|].
    rewrite rendered_render, settled_startup, Hs.
    now apply ids_bounded_timer.
  - split; [reflexivity|]. cbn. now rewrite <- Hs in Hb.
  - unfold handleAddTask.
    destruct (String.eqb (trim (value (newTaskInputState a))) "").
    + split; [reflexivity|]. cbn. now rewrite <- Hs in Hb.
    + rewrite !execState_bind, exec_inManager.
      cbn [execState runState setNewTaskInput bind get put ret Monad_state
           MonadState_state renderApp taskManager snd].
      split; [reflexivity|].
      rewrite rendered_render, settled_addTask, Hs.
      now apply ids_bounded_add.
  - destruct (nth_error (tasks (rendered (taskManager a))) i) as [t|];
      [destruct (offersComplete t)|]; try (split; assumption).
    rewrite exec_inManager. cbn [renderApp taskManager]. split; [reflexivity|].
    rewrite rendered_render, settled_completeTask, Hs.
    now apply ids_bounded_complete.
  - rewrite exec_inManager. cbn [renderApp taskManager]. split; [reflexivity|].
    rewrite rendered_render, settled_resetSystem. apply ids_bounded_reset.
  - split; [reflexivity|]. cbn. now rewrite <- Hs in Hb.
  - split; [reflexivity|]. cbn. now rewrite <- Hs in Hb.
Qed.

(** X13: in every state [App] reaches through its events (the mount timer,
    typing, submitting, "Mark Complete", "Exit", the About dialog), each
    task id is at least 1 and below [nextId], and no id other than 1 is
    held by two tasks. *)
Theorem session_ids_bounded trim es :
  let s := rendered (taskManager (session trim es)) in
  1 <= nextId s
  /\ Forall (fun i => 1 <= i < nextId s) (ids s)
  /\ NoDup (filter (fun i => negb (i =? 1)) (ids s)).
Proof.
  cbv zeta. change (ids_bounded (rendered (taskManager (session trim es)))).
  unfold session.
  assert (G : forall a,
             queue (taskManager a) = [] ->
             ids_bounded (rendered (taskManager a)) ->
             ids_bounded (rendered (taskManager (fold_left (handle trim) es a)))).
  { induction es as [|e es IH]; intros a Hq Hb; [exact Hb|].
    cbn [fold_left].
    destruct (handle_keeps_ids_bounded trim a e Hq Hb) as [Hq' Hb'].
    now apply IH. }
  apply G; [reflexivity|]. apply ids_bounded_reset.
Qed.

Lemma filter_length_pos {A : Type} (p : A -> bool) l x :
  In x l -> p x = true -> (0 < List.length (filter p l))%nat.
Proof.
  intros Hin Hp. assert (H : In x (filter p l)) by now apply filter_In.
  destruct (filter p l); [destruct H | cbn; lia].
Qed.

(** X14: a click on "Mark Complete" of a listed task completes every task
    with that task's id, so none of them offers the button any more and
    the "Completed" figure rises; the entry it logs is "Task {id} done."
    when React runs the updater inside [setTasks] and "ID not found."
    when it does not. *)
Theorem markComplete_click trim eager clk i t a :
  queue (taskManager a) = [] ->
  nth_error (tasks (rendered (taskManager a))) i = Some t ->
  offersComplete t = true ->
  let s := rendered (taskManager a) in
  let s' := rendered (taskManager (handle trim a (MarkComplete eager clk i))) in
  Forall (fun u => Task.id u = Task.id t -> offersComplete u = false) (tasks s')
  /\ (completedTasks s < completedTasks s')%nat
  /\ logs s'
     = logs s
       ++ [entry clk (if eager
                      then ("Task " ++ string_of_Z (Task.id t) ++ " done.")%string
                      else "ID not found.")].
Proof.
  intros Hq Hi Ho. cbv zeta. cbn [handle]. rewrite Hi, Ho.
  rewrite exec_inManager. cbn [renderApp taskManager].
  rewrite rendered_render, settled_completeTask, (settled_no_queue _ Hq).
  cbn [tasks logs]. pose proof (nth_error_In _ _ Hi) as Hin.
  split; [|split].
  - apply Forall_map, Forall_forall. intros u _.
    rewrite complete_id. intros Hu. unfold offersComplete, complete, mark.
    apply Z.eqb_eq in Hu. now rewrite Hu.
  - unfold completedTasks. cbn [tasks]. rewrite completed_after_map.
    assert (0 < List.length
                  (filter (fun u => has_id (Task.id t) u && offersComplete u)
                     (tasks (rendered (taskManager a)))))%nat; [|lia].
    apply filter_length_pos with t; [exact Hin|].
    unfold has_id. now rewrite Z.eqb_refl, Ho.
  - f_equal. f_equal. f_equal.
    assert (X : existsb (has_id (Task.id t)) (tasks (rendered (taskManager a)))
                = true).
    { apply existsb_exists. exists t. split; [exact Hin|].
      unfold has_id. apply Z.eqb_refl. }
    rewrite X, andb_true_r. unfold invoked_now. rewrite Hq.
    now rewrite andb_true_r.
Qed.

Lemma markComplete_click_witness :
  let a := session trim_blanks [TimerFires noon noon noon] in
  queue (taskManager a) = []
  /\ offersComplete {| Task.id := 1; Task.description := "Refactor Legacy Code";
                       Task.completed := false |} = true
  /\ (completedTasks (rendered (taskManager a)) = 0)%nat
  /\ (completedTasks (rendered (taskManager
        (handle trim_blanks a (MarkComplete false noon 0)))) = 2)%nat
  /\ (completedTasks (rendered (taskManager a))
      < completedTasks (rendered (taskManager
          (handle trim_blanks a (MarkComplete false noon 0)))))%nat.
Proof.
  cbv zeta. split; [reflexivity|]. split; [reflexivity|].
  split; [reflexivity|]. split; [reflexivity|].
  exact (proj1 (proj2 (markComplete_click trim_blanks false noon 0
                         {| Task.id := 1;
                            Task.description := "Refactor Legacy Code";
                            Task.completed := false |}
                         (session trim_blanks [TimerFires noon noon noon])
                         eq_refl eq_refl eq_refl))).
Defined.
